(** * fxck-db: the iterator-model query engine of [db.cc]

    A shallow embedding of the value, row, expression and operator
    classes of [db.cc], and the properties of the operator protocol
    ([open] / [next] / [close]) and of expression evaluation that follow
    from the code.

    Conventions of the embedding.
    - A [unique_ptr<T>] data member is an [option T]: [None] is the null
      pointer ([unique_ptr]'s default state), [Some x] owns [x].
    - A call has an [outcome]: it returns a value, leaves through a C++
      exception, goes through a null pointer, or does not come back
      within the step budget ([OutOfFuel]).  Recursion through virtual
      calls is bounded by a [fuel] argument; a call that yields
      [OutOfFuel] for every budget never returns.
    - [std::map<string, Value>] is a [gmap string Value]. *)

From Stdlib Require Import ZArith List.
From stdpp Require Import base option gmap strings list.

Set Default Proof Using "Type".
Set Warnings "-register-all".

(** ** Outcomes of calls *)

(** The exceptions the standard library raises in this program:
    [std::out_of_range] from [map::at] / [vector::at], and
    [std::bad_variant_access] from [std::get]. *)
Inductive exception : Type :=
| out_of_range
| bad_variant_access.

Inductive outcome (A : Type) : Type :=
| Ret (a : A)
| Throw (e : exception)
| NullDeref
| OutOfFuel.

Arguments Ret {A} a.
Arguments Throw {A} e.
Arguments NullDeref {A}.
Arguments OutOfFuel {A}.

Definition bind {A B : Type} (x : outcome A) (k : A -> outcome B) : outcome B :=
  match x with
  | Ret a => k a
  | Throw e => Throw e
  | NullDeref => NullDeref
  | OutOfFuel => OutOfFuel
  end.

Declare Scope outcome_scope.
Delimit Scope outcome_scope with outcome.
Notation "'call' x := c 'in' k" := (bind c (fun x => k))
  (at level 10, x name, c at level 100, k at level 200) : outcome_scope.
Open Scope outcome_scope.

(** [p->...]: going through a [unique_ptr] or raw pointer. *)
Definition deref {A : Type} (p : option A) : outcome A :=
  match p with
  | Some a => Ret a
  | None => NullDeref
  end.

Definition returned {A : Type} (x : outcome A) : bool :=
  match x with
  | Ret _ => true
  | _ => false
  end.

Definition thrown {A : Type} (x : outcome A) : bool :=
  match x with
  | Throw _ => true
  | _ => false
  end.

(** ** Values and rows *)

(** [enum Type { Int, String, Boolean }]. *)
Inductive Type_ : Type :=
| Int
| String
| Boolean.

(** [struct Value { variant<int64_t, string, bool> value; }].  The three
    constructors are the three alternatives of the variant, in index
    order.  The integer payload is only ever stored and compared. *)
Inductive Value : Type :=
| Value_int (i : Z)
| Value_string (s : string)
| Value_bool (b : bool).

(** [Value::get_boolean]: [std::get<bool>] throws when another
    alternative is active. *)
Definition get_boolean (v : Value) : outcome bool :=
  match v with
  | Value_bool b => Ret b
  | _ => Throw bad_variant_access
  end.

Definition get_int (v : Value) : outcome Z :=
  match v with
  | Value_int i => Ret i
  | _ => Throw bad_variant_access
  end.

Definition get_string (v : Value) : outcome string :=
  match v with
  | Value_string s => Ret s
  | _ => Throw bad_variant_access
  end.

(** [operator==] of [std::variant]: equal indices and equal payloads. *)
Definition variant_eqb (a b : Value) : bool :=
  match a, b with
  | Value_int x, Value_int y => Z.eqb x y
  | Value_string x, Value_string y => String.eqb x y
  | Value_bool x, Value_bool y => Bool.eqb x y
  | _, _ => false
  end.

(** [struct Row { map<string, Value> payload; }]. *)
Record Row : Type := mkRow { payload : gmap string Value }.

(** ** Expressions *)

(** [struct Expression] declares the two virtual functions and has no
    data member: an object whose dynamic type is [Expression] itself
    carries no information. *)
Inductive Expression : Type :=
| Expression_object.

(** [struct Variable : Expression { string name; }]. *)
Record VariableExpr : Type := mkVariable { name : string }.

(** [struct EqualExpr : Expression]: both child slots are
    [unique_ptr<EqualExpr>]. *)
Inductive EqualExpr : Type :=
| mkEqualExpr (left_child right_child : option EqualExpr).

Definition left_child (e : EqualExpr) : option EqualExpr :=
  match e with mkEqualExpr l _ => l end.

Definition right_child (e : EqualExpr) : option EqualExpr :=
  match e with mkEqualExpr _ r => r end.

(** What a [unique_ptr<Expression>] can own: an object of one of the
    three classes (its dynamic type). *)
Inductive Expression_dyn : Type :=
| dyn_Expression (e : Expression)
| dyn_Variable (v : VariableExpr)
| dyn_EqualExpr (e : EqualExpr).

(** The child slots of an [EqualExpr], seen as expressions. *)
Definition slot_content (p : option EqualExpr) : list Expression_dyn :=
  match p with
  | Some x => [dyn_EqualExpr x]
  | None => []
  end.

Definition EqualExpr_children (e : EqualExpr) : list Expression_dyn :=
  slot_content (left_child e) ++ slot_content (right_child e).

Definition is_EqualExpr (e : Expression_dyn) : bool :=
  match e with
  | dyn_EqualExpr _ => true
  | _ => false
  end.

Definition is_Variable (e : Expression_dyn) : bool :=
  match e with
  | dyn_Variable _ => true
  | _ => false
  end.

(** [Variable::eval]: [row.payload.at(name)]. *)
Definition Variable_eval (this : VariableExpr) (row : Row) : outcome Value :=
  match payload row !! name this with
  | Some v => Ret v
  | None => Throw out_of_range
  end.

(** The comparison step of [EqualExpr::eval], line 71. *)
Definition equal_result (left_result right_result : Value) : Value :=
  Value_bool (variant_eqb left_result right_result).

(** [EqualExpr::eval]: left child first, then right child, then the
    comparison.  Both calls go through a [unique_ptr<EqualExpr>], and
    no class derives from [EqualExpr], so they reach this same body. *)
Fixpoint EqualExpr_eval (this : EqualExpr) (row : Row) : outcome Value :=
  match this with
  | mkEqualExpr l r =>
      call left_result := match l with
                          | Some x => EqualExpr_eval x row
                          | None => NullDeref
                          end in
      call right_result := match r with
                           | Some x => EqualExpr_eval x row
                           | None => NullDeref
                           end in
      Ret (equal_result left_result right_result)
  end.

(** [EqualExpr::return_type]. *)
Definition EqualExpr_return_type (this : EqualExpr) : Type_ := Boolean.

Section Eval.

(** [Expression::eval] is declared in [struct Expression] and its body
    is not part of [db.cc]; it is a parameter of everything that can
    reach it. *)
Variable Expression_eval : Expression -> Row -> outcome Value.

(** A virtual call [e->eval(row)] on an owned expression. *)
Definition eval (e : Expression_dyn) (row : Row) : outcome Value :=
  match e with
  | dyn_Expression x => Expression_eval x row
  | dyn_Variable x => Variable_eval x row
  | dyn_EqualExpr x => EqualExpr_eval x row
  end.

End Eval.

(** ** Operators *)

(** The three operator classes with their data members.  [Scan] has
    [child]; [Filter] has [pred] and [child]; [Project] has [projects]
    and [child].  A [tuple<string, Expression>] holds its expression by
    value, so each entry of [projects] is a plain [Expression]. *)
Inductive Operator : Type :=
| Scan (child : option Operator)
| Filter (pred : option Expression_dyn) (child : option Operator)
| Project (projects : list (string * Expression)) (child : option Operator).

(** The constructors, by their member initialiser lists. *)

(** [Scan(unique_ptr<Operator> _child) : child(move(_child))]. *)
Definition Scan_ctor (_child : option Operator) : Operator :=
  Scan _child.

(** [Filter(unique_ptr<Expression> _pred, unique_ptr<Operator> child)
    : pred(move(_pred))]: the member [child] is not in the initialiser
    list and stays default-constructed. *)
Definition Filter_ctor (_pred : option Expression_dyn)
    (child : option Operator) : Operator :=
  Filter _pred None.

(** [Project(_projects, _child) : projects(move(_projects)),
    child(move(_child))]. *)
Definition Project_ctor (_projects : list (string * Expression))
    (_child : option Operator) : Operator :=
  Project _projects _child.

(** [children()]: the base class returns no child and [Scan] does not
    override it; [Filter] and [Project] return [{child.get()}]. *)
Definition children (this : Operator) : list (option Operator) :=
  match this with
  | Scan _ => []
  | Filter _ child => [child]
  | Project _ child => [child]
  end.

(** Nesting depth of an operator tree. *)
Fixpoint depth (this : Operator) : nat :=
  match this with
  | Scan _ => 1
  | Filter _ child =>
      S (match child with Some c => depth c | None => 0 end)
  | Project _ child =>
      S (match child with Some c => depth c | None => 0 end)
  end.

(** *** [open] and [close] *)

(** The two protocol methods of the base class; no operator overrides
    either.  Every entry into one of them on an object is recorded. *)
Inductive method : Type :=
| m_open
| m_close.

Inductive event : Type :=
| Enter (m : method) (this : Operator).

(** A [void] call with the entries it made. *)
Definition traced : Type := (list event * outcome unit)%type.

Definition then_ (a : traced) (k : traced) : traced :=
  match a with
  | (t, Ret _) => (t ++ fst k, snd k)
  | (t, stop) => (t, stop)
  end.

Section Body.

(** The call [p->open()] (or [p->close()]) made inside a body. *)
Variable dispatch : option Operator -> traced.

(** [for (auto child : children()) child->m();] *)
Fixpoint for_each_child (cs : list (option Operator)) : traced :=
  match cs with
  | [] => ([], Ret tt)
  | child :: rest => then_ (dispatch child) (for_each_child rest)
  end.

(** Body of [Operator::open]: the loop over the children, then the
    call [open()] on the object itself. *)
Definition Operator_open (this : Operator) : traced :=
  then_ (for_each_child (children this)) (dispatch (Some this)).

(** Body of [Operator::close]: the loop over the children, then the
    call [close()] on the object itself. *)
Definition Operator_close (this : Operator) : traced :=
  then_ (for_each_child (children this)) (dispatch (Some this)).

End Body.

(** [p->open()]: through the pointer, into the body. *)
Fixpoint open (fuel : nat) (p : option Operator) : traced :=
  match fuel with
  | 0 => ([], OutOfFuel)
  | S fuel' =>
      match p with
      | None => ([], NullDeref)
      | Some this =>
          then_ ([Enter m_open this], Ret tt)
                (Operator_open (open fuel') this)
      end
  end.

(** [p->close()]. *)
Fixpoint close (fuel : nat) (p : option Operator) : traced :=
  match fuel with
  | 0 => ([], OutOfFuel)
  | S fuel' =>
      match p with
      | None => ([], NullDeref)
      | Some this =>
          then_ ([Enter m_close this], Ret tt)
                (Operator_close (close fuel') this)
      end
  end.

(** A callee that records its entry and returns at once: what a call
    looks like from inside a body when it comes back. *)
Definition returning (m : method) (p : option Operator) : traced :=
  match p with
  | None => ([], NullDeref)
  | Some this => ([Enter m this], Ret tt)
  end.

(** *** [next] *)

Section Next.

Variable Expression_eval : Expression -> Row -> outcome Value.

(** The loop of [Project::next]: for each [(name, expr)] of [projects],
    in order, [new_row.payload[name] = expr.eval(row)].  [expr] is an
    [Expression] held by value, so the call reaches [Expression::eval]. *)
Fixpoint Project_assign (projects : list (string * Expression))
    (row new_row : Row) : outcome Row :=
  match projects with
  | [] => Ret new_row
  | (name, expr) :: rest =>
      call result := Expression_eval expr row in
      Project_assign rest row (mkRow (<[name := result]> (payload new_row)))
  end.

(** [Project::next] from the test of the pulled [optional<Row>] on. *)
Definition Project_emit (projects : list (string * Expression))
    (next : option Row) : outcome (option Row) :=
  match next with
  | None => Ret None
  | Some row =>
      call new_row := Project_assign projects row (mkRow ∅) in
      Ret (Some new_row)
  end.

(** [Project::next], with the virtual call [child->next()] as
    [child_next]: the outcome of that call and the child after it.  One
    pull; its result goes to [Project_emit]. *)
Definition Project_next
    (child_next : Operator -> outcome (option Row) * Operator)
    (projects : list (string * Expression)) (child : option Operator)
  : outcome (option Row) * Operator :=
  match child with
  | None => (NullDeref, Project projects child)
  | Some c =>
      let '(pulled, c') := child_next c in
      (bind pulled (Project_emit projects), Project projects (Some c'))
  end.

(** [pred->eval(row).get_boolean()] in [Filter::next]. *)
Definition Filter_test (pred : option Expression_dyn) (row : Row)
  : outcome bool :=
  call p := deref pred in
  call v := eval Expression_eval p row in
  get_boolean v.

(** The virtual call [this->next()]: the outcome of the call and the
    object after it.  [Scan::next] returns the empty optional.
    [Filter::next] loops: pull from [child]; an empty optional ends the
    call; otherwise test the row, return it when the test is true and go
    round again when it is false.  [Project::next] is [Project_next]
    with [next] on the child as the virtual call. *)
Fixpoint next (fuel : nat) (this : Operator)
  : outcome (option Row) * Operator :=
  match fuel with
  | 0 => (OutOfFuel, this)
  | S fuel' =>
      match this with
      | Scan child => (Ret None, this)
      | Filter pred child =>
          match child with
          | None => (NullDeref, this)
          | Some c =>
              let '(pulled, c') := next fuel' c in
              let this' := Filter pred (Some c') in
              match pulled with
              | Ret None => (Ret None, this')
              | Ret (Some row) =>
                  match Filter_test pred row with
                  | Ret true => (Ret (Some row), this')
                  | Ret false => next fuel' this'
                  | Throw e => (Throw e, this')
                  | NullDeref => (NullDeref, this')
                  | OutOfFuel => (OutOfFuel, this')
                  end
              | Throw e => (Throw e, this')
              | NullDeref => (NullDeref, this')
              | OutOfFuel => (OutOfFuel, this')
              end
          end
      | Project projects child => Project_next (next fuel') projects child
      end
  end.

(** [k] successive calls of [next] on the same object, each with the
    given budget; the sequence of calls ends with the first call that
    does not return. *)
Fixpoint next_calls (fuel k : nat) (this : Operator)
  : list (outcome (option Row)) :=
  match k with
  | 0 => []
  | S k' =>
      let '(r, this') := next fuel this in
      if returned r then r :: next_calls fuel k' this' else [r]
  end.

End Next.

(** The assignment [new_row.payload[name] = result] on the payload. *)
Definition assign (m : gmap string Value) (nv : string * Value)
  : gmap string Value :=
  <[nv.1 := nv.2]> m.

(** A stand-in for the virtual call [child->next()] on a child with
    one row left: the call yields [row] and leaves a [Scan] as the
    child, on which a further call returns the empty optional. *)
Definition last_row (row : Row)
  : Operator -> outcome (option Row) * Operator :=
  fun c =>
    match c with
    | Scan _ => (Ret None, c)
    | _ => (Ret (Some row), Scan_ctor None)
    end.

(** An instance of the missing [Expression::eval], for concrete runs. *)
Definition eval_zero (e : Expression) (row : Row) : outcome Value :=
  Ret (Value_int 0).

(** The order of steps in which the own step of [this] is the first
    thing its [m] does: the entry that follows the entry into [this] is
    again an entry into [this]. *)
Definition own_step_first (m : method) (this : Operator)
    (t : list event) : Prop :=
  t !! 1%nat = Some (Enter m this).

(** A call that did not return normally. *)
Definition fails {A : Type} (x : outcome A) : Prop :=
  returned x = false.

(** ** Schema *)

(** [vector::at] and [map::at]: the element, or [std::out_of_range]. *)
Definition vector_at {A : Type} (v : list A) (index : nat) : outcome A :=
  match v !! index with
  | Some x => Ret x
  | None => Throw out_of_range
  end.

Definition map_at {V : Type} (m : gmap string V) (key : string) : outcome V :=
  match m !! key with
  | Some x => Ret x
  | None => Throw out_of_range
  end.

(** [struct Schema::Column { string name; Type type; }]. *)
Record Column : Type := mkColumn { column_name : string; column_type : Type_ }.

(** [struct Schema { vector<Column> columns;
    map<string, size_t> column_name_map; }].  A [size_t] is only ever
    used as a position in [columns]. *)
Record Schema : Type := mkSchema {
  columns : list Column;
  column_name_map : gmap string nat
}.

(** [Schema::column(size_t index)]: [columns.at(index)]. *)
Definition Schema_column_index (this : Schema) (index : nat)
  : outcome Column :=
  vector_at (columns this) index.

(** [Schema::column(string name)]:
    [columns.at(column_name_map.at(name))]. *)
Definition Schema_column_name (this : Schema) (name : string)
  : outcome Column :=
  call index := map_at (column_name_map this) name in
  vector_at (columns this) index.

(** [Variable::return_type]: [schema.column(name).type]. *)
Definition Variable_return_type (this : VariableExpr) (schema : Schema)
  : outcome Type_ :=
  call c := Schema_column_name schema (name this) in
  Ret (column_type c).

(** The two members of a [Schema] agree: [column_name_map] sends a name
    to a position exactly when the column at that position has that
    name.  Nothing in [db.cc] builds or checks this; it is what a user
    of [Schema] has to provide. *)
Definition Schema_indexed (s : Schema) : Prop :=
  forall (n : string) (i : nat),
    column_name_map s !! n = Some i <->
    exists c, columns s !! i = Some c /\ column_name c = n.

(** A schema with the columns [id : Int] and [name : String], indexed
    by name. *)
Definition id_name_schema : Schema :=
  mkSchema [mkColumn "id" Int; mkColumn "name" String]
           (<["id" := 0%nat]> (<["name" := 1%nat]> ∅)).

(** ** The shape of an operator tree *)

(** The operators [open] and [close] reach from [this]: [this], then
    what [children()] gives, as long as the pointer is not null. *)
Fixpoint chain (this : Operator) : list Operator :=
  this ::
  match this with
  | Scan _ => []
  | Filter _ child =>
      match child with Some c => chain c | None => [] end
  | Project _ child =>
      match child with Some c => chain c | None => [] end
  end.

(** The last operator of the chain. *)
Fixpoint bottom (this : Operator) : Operator :=
  match this with
  | Scan _ => this
  | Filter _ child =>
      match child with Some c => bottom c | None => this end
  | Project _ child =>
      match child with Some c => bottom c | None => this end
  end.

(** Whether the chain ends in a [Scan] (otherwise it ends in a [Filter]
    or [Project] whose [child] is null). *)
Fixpoint ends_in_Scan (this : Operator) : bool :=
  match this with
  | Scan _ => true
  | Filter _ child =>
      match child with Some c => ends_in_Scan c | None => false end
  | Project _ child =>
      match child with Some c => ends_in_Scan c | None => false end
  end.

(** The run of [open] or [close] with a budget, in closed form: the
    entries down the chain, then, at a [Scan], entries into that [Scan]
    for the rest of the budget. *)
Definition run_trace (m : method) (fuel : nat) (this : Operator)
  : list event :=
  take fuel (Enter m <$> chain this) ++
  if ends_in_Scan this
  then replicate (fuel - depth this) (Enter m (bottom this))
  else [].

Definition run_outcome (fuel : nat) (this : Operator) : outcome unit :=
  if ends_in_Scan this then OutOfFuel
  else if depth this <? fuel then NullDeref else OutOfFuel.

(** What [next] comes to on an operator, once the budget suffices. *)
Definition next_result (this : Operator) : outcome (option Row) :=
  if ends_in_Scan this then Ret None else NullDeref.

(** * Properties *)

(** ** Values *)

Lemma variant_eqb_eq (a b : Value) : variant_eqb a b = true <-> a = b.
Proof.
  destruct a as [x|x|x], b as [y|y|y]; simpl;
    try (split; [discriminate | discriminate]).
  - rewrite Z.eqb_eq. split; [intros -> | intros [= ->]]; reflexivity.
  - rewrite String.eqb_eq. split; [intros -> | intros [= ->]]; reflexivity.
  - rewrite Bool.eqb_true_iff.
    split; [intros -> | intros [= ->]]; reflexivity.
Qed.

Lemma variant_eqb_refl (a : Value) : variant_eqb a a = true.
Proof. apply variant_eqb_eq. reflexivity. Qed.

Lemma variant_eqb_sym (a b : Value) : variant_eqb a b = variant_eqb b a.
Proof.
  destruct (variant_eqb a b) eqn:Hab, (variant_eqb b a) eqn:Hba;
    try reflexivity.
  - apply variant_eqb_eq in Hab. subst b.
    rewrite variant_eqb_refl in Hba. discriminate.
  - apply variant_eqb_eq in Hba. subst b.
    rewrite variant_eqb_refl in Hab. discriminate.
Qed.

(** Values of different alternatives compare unequal; the comparison
    itself raises nothing. *)
Lemma variant_eqb_mismatch (a b : Value) :
  match a, b with
  | Value_int _, Value_int _
  | Value_string _, Value_string _
  | Value_bool _, Value_bool _ => True
  | _, _ => variant_eqb a b = false
  end.
Proof. destruct a, b; simpl; trivial. Qed.

Lemma equal_result_true (a b : Value) :
  equal_result a b = Value_bool true <-> a = b.
Proof.
  unfold equal_result. split.
  - intros [= H]. apply variant_eqb_eq, H.
  - intros H. apply variant_eqb_eq in H. rewrite H. reflexivity.
Qed.

(** ** Expressions *)

(** Every [EqualExpr] tree is finite and its slots hold [EqualExpr]
    nodes or null, so following left children ends at a null slot:
    evaluation goes through a null pointer before any comparison. *)
Lemma EqualExpr_eval_null (this : EqualExpr) (row : Row) :
  EqualExpr_eval this row = NullDeref.
Proof.
  revert this. fix IH 1. intros [[l|] r]; simpl.
  - rewrite (IH l). reflexivity.
  - reflexivity.
Qed.

(** Swapping the two slots does not change the outcome of [eval]. *)
Lemma EqualExpr_eval_sym (a b : option EqualExpr) (row : Row) :
  EqualExpr_eval (mkEqualExpr a b) row = EqualExpr_eval (mkEqualExpr b a) row.
Proof. rewrite !EqualExpr_eval_null. reflexivity. Qed.

(** C6.  [EqualExpr::eval] is meant to evaluate both children and to
    return the boolean Value of their comparison by content.  The
    comparison step does that: its result is [true] exactly for equal
    alternatives with equal payloads, and [false] (no error) for
    different alternatives.  But [eval] never reaches it: on every
    [EqualExpr] and every row the call goes through a null child slot
    and returns no Value; the smallest case is [EqualExpr(nullptr,
    nullptr)]. *)
Theorem EqualExpr_eval_returns_no_value :
  (forall (this : EqualExpr) (row : Row),
      EqualExpr_eval this row = NullDeref) /\
  (forall row : Row,
      EqualExpr_eval (mkEqualExpr None None) row = NullDeref) /\
  (forall a b : Value, equal_result a b = Value_bool true <-> a = b) /\
  equal_result (Value_int 1) (Value_string "1") = Value_bool false.
Proof.
  split; [| split; [| split]].
  - apply EqualExpr_eval_null.
  - reflexivity.
  - apply equal_result_true.
  - reflexivity.
Qed.

(** C8.  Reflexivity of [Equal] fails on the code: for every
    expression [e] that can fill the slots of an [EqualExpr] and every
    row, evaluating [Equal(e, e)] goes through a null pointer instead
    of returning the boolean [true]. *)
Theorem Equal_reflexive_no_value (e : EqualExpr) (row : Row) :
  EqualExpr_eval (mkEqualExpr (Some e) (Some e)) row = NullDeref /\
  EqualExpr_eval (mkEqualExpr (Some e) (Some e)) row <> Ret (Value_bool true).
Proof.
  rewrite EqualExpr_eval_null. split; [reflexivity | discriminate].
Qed.

(** C10.  Each filled child slot of an [EqualExpr] holds an
    [EqualExpr]: seen as expressions, the children of a node are all
    [EqualExpr] objects and none is a [Variable]; a node with both
    slots filled has exactly its two [EqualExpr] children. *)
Theorem EqualExpr_children_are_EqualExpr (this : EqualExpr) :
  Forall (fun c => is_EqualExpr c = true /\ is_Variable c = false)
         (EqualExpr_children this) /\
  (forall v : VariableExpr, dyn_Variable v ∉ EqualExpr_children this) /\
  (forall a b : EqualExpr,
      EqualExpr_children (mkEqualExpr (Some a) (Some b))
      = [dyn_EqualExpr a; dyn_EqualExpr b]).
Proof.
  unfold EqualExpr_children. split; [| split].
  - destruct this as [[l|] [r|]]; simpl; repeat constructor.
  - intros v. destruct this as [[l|] [r|]]; simpl;
      rewrite ?elem_of_cons, ?elem_of_nil; intuition discriminate.
  - reflexivity.
Qed.

(** ** [open] and [close] *)

Lemma then__returned (a k : traced) :
  returned (snd (then_ a k)) = returned (snd a) && returned (snd k).
Proof. destruct a as [t [[]| | |]]; reflexivity. Qed.

Lemma then__stop (a k : traced) :
  returned (snd a) = false -> then_ a k = a.
Proof. destruct a as [t [[]| | |]]; simpl; [discriminate | reflexivity ..]. Qed.

Lemma then__thrown (a k : traced) :
  thrown (snd a) = false -> thrown (snd k) = false ->
  thrown (snd (then_ a k)) = false.
Proof. destruct a as [t [[]| | |]]; simpl; intros Ha Hk; assumption. Qed.

Lemma for_each_child_thrown (dispatch : option Operator -> traced)
    (cs : list (option Operator)) :
  (forall p, thrown (snd (dispatch p)) = false) ->
  thrown (snd (for_each_child dispatch cs)) = false.
Proof.
  intros H. induction cs as [|c cs IH]; simpl.
  - reflexivity.
  - apply then__thrown; [apply H | apply IH].
Qed.

(** No budget lets [open] return: the body ends with a call of [open]
    on the same object. *)
Lemma open_no_return (fuel : nat) (p : option Operator) :
  returned (snd (open fuel p)) = false.
Proof.
  revert p. induction fuel as [|fuel IH]; intros [this|]; simpl;
    try reflexivity.
  unfold Operator_open. rewrite !then__returned, IH.
  apply andb_false_r.
Qed.

Lemma close_no_return (fuel : nat) (p : option Operator) :
  returned (snd (close fuel p)) = false.
Proof.
  revert p. induction fuel as [|fuel IH]; intros [this|]; simpl;
    try reflexivity.
  unfold Operator_close. rewrite !then__returned, IH.
  apply andb_false_r.
Qed.

Lemma open_no_throw (fuel : nat) (p : option Operator) :
  thrown (snd (open fuel p)) = false.
Proof.
  revert p. induction fuel as [|fuel IH]; intros [this|]; simpl;
    try reflexivity.
  unfold Operator_open.
  apply then__thrown; [| apply IH].
  apply for_each_child_thrown, IH.
Qed.

Lemma close_no_throw (fuel : nat) (p : option Operator) :
  thrown (snd (close fuel p)) = false.
Proof.
  revert p. induction fuel as [|fuel IH]; intros [this|]; simpl;
    try reflexivity.
  unfold Operator_close.
  apply then__thrown; [| apply IH].
  apply for_each_child_thrown, IH.
Qed.

(** On an operator without children the body is the call on itself,
    again and again. *)
Lemma open_Scan (fuel : nat) (child : option Operator) :
  open fuel (Some (Scan child))
  = (replicate fuel (Enter m_open (Scan child)), OutOfFuel).
Proof.
  induction fuel as [|fuel IH]; [reflexivity |].
  simpl. unfold Operator_open. simpl. rewrite IH. reflexivity.
Qed.

Lemma close_Scan (fuel : nat) (child : option Operator) :
  close fuel (Some (Scan child))
  = (replicate fuel (Enter m_close (Scan child)), OutOfFuel).
Proof.
  induction fuel as [|fuel IH]; [reflexivity |].
  simpl. unfold Operator_close. simpl. rewrite IH. reflexivity.
Qed.

Lemma children_depth (this c : Operator) (rest : list (option Operator)) :
  children this = Some c :: rest -> depth c < depth this.
Proof.
  destruct this as [ch|pr ch|ps ch]; simpl; intros H;
    [discriminate | injection H as -> _ .. ]; simpl; lia.
Qed.

(** While [close] runs on [p], it is entered only on operators nested
    in [p]. *)
Lemma close_entries (fuel : nat) (this : Operator) (e : event) :
  e ∈ fst (close fuel (Some this)) ->
  exists q, e = Enter m_close q /\ depth q <= depth this.
Proof.
  revert this e. induction fuel as [|fuel IH]; intros this e; simpl.
  - intros H. apply elem_of_nil in H. destruct H.
  - rewrite elem_of_cons. intros [-> | H].
    + exists this. split; [reflexivity | lia].
    + revert H. unfold Operator_close.
      destruct this as [ch|pr [c|]|ps [c|]]; simpl.
      * apply IH.
      * rewrite (then__stop (close fuel (Some c))) by apply close_no_return.
        rewrite then__stop by apply close_no_return.
        intros H. apply IH in H as (q & -> & Hq).
        exists q. split; [reflexivity | lia].
      * destruct fuel; simpl; intros H; apply elem_of_nil in H; destruct H.
      * rewrite (then__stop (close fuel (Some c))) by apply close_no_return.
        rewrite then__stop by apply close_no_return.
        intros H. apply IH in H as (q & -> & Hq).
        exists q. split; [reflexivity | lia].
      * destruct fuel; simpl; intros H; apply elem_of_nil in H; destruct H.
Qed.

(** C2.  [open] is meant to open the children and then initialise the
    node, and to come back.  On the code it never comes back: the step
    after the loop over the children is a call of [open] on the same
    object, so no budget lets [open] return on any operator; on a
    [Scan], which has no children to open, the run is nothing but
    entries into [open] on that [Scan]. *)
Theorem open_never_returns :
  (forall (fuel : nat) (this : Operator),
      snd (open fuel (Some this)) <> Ret tt) /\
  (forall (fuel : nat) (child : option Operator),
      open fuel (Some (Scan_ctor child))
      = (replicate fuel (Enter m_open (Scan_ctor child)), OutOfFuel)).
Proof.
  split.
  - intros fuel this H.
    pose proof (open_no_return fuel (Some this)) as Hn.
    rewrite H in Hn. discriminate.
  - intros fuel child. apply open_Scan.
Qed.

(** C3, as the code has it.  [close] goes to the children before the
    node's own step, the same order as [open]: once [close] is entered
    on a node whose first child is [c], the next entry is [close] on
    [c], and no own step of the node (a further entry into [close] on
    it) happens while the call on [c] runs.  With calls that come back,
    the body enters [close] on [c] and then takes the own step. *)
Theorem close_children_before_self (fuel : nat) (this c : Operator)
    (rest : list (option Operator)) :
  children this = Some c :: rest ->
  Operator_close (returning m_close) this
  = ([Enter m_close c; Enter m_close this], Ret tt) /\
  exists t,
    fst (close (S (S fuel)) (Some this))
    = Enter m_close this :: Enter m_close c :: t /\
    Enter m_close this ∉ Enter m_close c :: t.
Proof.
  intros Hch. split.
  { unfold Operator_close. rewrite Hch.
    destruct this as [ch|pr ch|ps ch]; simpl in Hch;
      [discriminate | injection Hch as _ <- ..]; reflexivity. }
  assert (Hrun : fst (close (S (S fuel)) (Some this))
                 = Enter m_close this :: fst (close (S fuel) (Some c))).
  { change (close (S (S fuel)) (Some this))
      with (then_ ([Enter m_close this], Ret tt)
                  (Operator_close (close (S fuel)) this)).
    unfold Operator_close. rewrite Hch.
    change (for_each_child (close (S fuel)) (Some c :: rest))
      with (then_ (close (S fuel) (Some c))
                  (for_each_child (close (S fuel)) rest)).
    rewrite !(then__stop (close (S fuel) (Some c)))
      by apply close_no_return.
    reflexivity. }
  exists (fst (Operator_close (close fuel) c)).
  split.
  - rewrite Hrun. reflexivity.
  - change (Enter m_close c :: fst (Operator_close (close fuel) c))
      with (fst (close (S fuel) (Some c))).
    intros Hin. apply close_entries in Hin as (q & [= <-] & Hq).
    apply children_depth in Hch. lia.
Qed.

Lemma close_children_before_self_witness :
  Operator_close (returning m_close) (Project_ctor [] (Some (Scan_ctor None)))
  = ([Enter m_close (Scan_ctor None);
      Enter m_close (Project_ctor [] (Some (Scan_ctor None)))], Ret tt) /\
  exists t,
    fst (close 3 (Some (Project_ctor [] (Some (Scan_ctor None)))))
    = Enter m_close (Project_ctor [] (Some (Scan_ctor None)))
        :: Enter m_close (Scan_ctor None) :: t /\
    Enter m_close (Project_ctor [] (Some (Scan_ctor None)))
      ∉ Enter m_close (Scan_ctor None) :: t.
Proof.
  apply (close_children_before_self 1 (Project_ctor [] (Some (Scan_ctor None)))
           (Scan_ctor None) []).
  reflexivity.
Defined.

(** C3 as stated fails: on a [Project] over a [Scan], the entry that
    follows the entry into [close] on the [Project] is [close] on the
    [Scan], not the [Project]'s own step. *)
Lemma close_own_step_not_first :
  ~ own_step_first m_close (Project_ctor [] (Some (Scan_ctor None)))
      (fst (close 3 (Some (Project_ctor [] (Some (Scan_ctor None)))))).
Proof. unfold own_step_first. simpl. discriminate. Qed.

(** ** [next] *)

Section NextProperties.

Variable Expression_eval : Expression -> Row -> outcome Value.

Local Abbreviation next := (next Expression_eval).
Local Abbreviation next_calls := (next_calls Expression_eval).
Local Abbreviation Project_emit := (Project_emit Expression_eval).
Local Abbreviation Project_assign := (Project_assign Expression_eval).

(** No [next] assigns to a data member, and no operator is a source of
    rows: a call leaves the object as it was, and it returns the empty
    optional unless it stops at a null [child] (or the budget). *)
Lemma next_inert (fuel : nat) (this : Operator) :
  snd (next fuel this) = this /\
  (fst (next fuel this) = Ret None \/
   fst (next fuel this) = NullDeref \/
   fst (next fuel this) = OutOfFuel).
Proof.
  revert this. induction fuel as [|fuel IH]; intros this; simpl.
  - auto.
  - destruct this as [ch|pr [c|]|ps [c|]]; simpl; auto.
    + specialize (IH c). destruct (next fuel c) as [r c'].
      simpl in IH. destruct IH as [-> [-> | [-> | ->]]]; simpl; auto.
    + specialize (IH c). destruct (next fuel c) as [r c'].
      simpl in IH. destruct IH as [-> [-> | [-> | ->]]]; simpl; auto.
Qed.

Lemma next_state (fuel : nat) (this : Operator) :
  snd (next fuel this) = this.
Proof. apply next_inert. Qed.

Lemma next_no_row (fuel : nat) (this : Operator) (row : Row) :
  fst (next fuel this) <> Ret (Some row).
Proof.
  destruct (next_inert fuel this) as [_ [H | [H | H]]];
    rewrite H; discriminate.
Qed.

Lemma next_no_throw (fuel : nat) (this : Operator) :
  thrown (fst (next fuel this)) = false.
Proof.
  destruct (next_inert fuel this) as [_ [H | [H | H]]];
    rewrite H; reflexivity.
Qed.

(** A budget of the depth of the tree is enough for [next] to finish. *)
Lemma next_enough_fuel (fuel : nat) (this : Operator) :
  depth this <= fuel -> fst (next fuel this) <> OutOfFuel.
Proof.
  revert this. induction fuel as [|fuel IH]; intros this Hd.
  - destruct this; simpl in Hd; lia.
  - destruct this as [ch|pr [c|]|ps [c|]]; simpl in *; try discriminate.
    + assert (Hc : depth c <= fuel) by lia.
      specialize (IH c Hc).
      destruct (next_inert fuel c) as [_ Hr].
      destruct (next fuel c) as [r c']. simpl in *.
      destruct Hr as [-> | [-> | ->]]; simpl;
        [discriminate | discriminate | contradiction].
    + assert (Hc : depth c <= fuel) by lia.
      specialize (IH c Hc).
      destruct (next_inert fuel c) as [_ Hr].
      destruct (next fuel c) as [r c']. simpl in *.
      destruct Hr as [-> | [-> | ->]]; simpl;
        [discriminate | discriminate | contradiction].
Qed.

(** Successive calls repeat the first one. *)
Lemma next_calls_repeat (fuel k : nat) (this : Operator) :
  next_calls fuel k this
  = if returned (fst (next fuel this))
    then replicate k (fst (next fuel this))
    else take k [fst (next fuel this)].
Proof.
  induction k as [|k IH]; simpl.
  - destruct (returned _); reflexivity.
  - pose proof (next_state fuel this) as Hs.
    destruct (next fuel this) as [r this'] eqn:E. simpl in *. subst this'.
    destruct (returned r) eqn:Hr; [| destruct k; reflexivity].
    rewrite IH. reflexivity.
Qed.

Lemma Scan_next (fuel : nat) (child : option Operator) :
  next (S fuel) (Scan child) = (Ret None, Scan child).
Proof. reflexivity. Qed.

(** The row [Project::next] builds: its keys are the declared names,
    and each name carries the value its expression evaluated to. *)
Lemma Project_assign_spec (projects : list (string * Expression))
    (row new_row : Row) (v : Value) :
  (forall e, Expression_eval e row = Ret v) ->
  exists out,
    Project_assign projects row new_row = Ret out /\
    dom (payload out) = list_to_set projects.*1 ∪ dom (payload new_row) /\
    (forall name, name ∈ projects.*1 -> payload out !! name = Some v) /\
    (forall name, name ∉ projects.*1 ->
                  payload out !! name = payload new_row !! name).
Proof.
  intros Hv. revert new_row.
  induction projects as [|[n e] ps IH]; intros new_row; simpl.
  - exists new_row. repeat split.
    + rewrite (left_id_L ∅ (∪)). reflexivity.
    + intros name H. apply elem_of_nil in H. destruct H.
  - rewrite Hv. simpl.
    destruct (IH (mkRow (<[n:=v]> (payload new_row))))
      as (out & Hout & Hdom & Hin & Hnin).
    simpl in *. exists out. repeat split.
    + exact Hout.
    + rewrite Hdom, dom_insert_L.
      rewrite (assoc_L (∪)), (comm_L (∪) (list_to_set ps.*1) {[n]}).
      reflexivity.
    + intros name Hname.
      destruct (decide (name ∈ ps.*1)) as [Hps | Hps]; [apply Hin, Hps |].
      rewrite Hnin by exact Hps.
      apply elem_of_cons in Hname as [-> | Hname]; [| contradiction].
      apply lookup_insert_eq.
    + intros name Hname. apply not_elem_of_cons in Hname as [Hne Hps].
      rewrite Hnin by exact Hps. apply lookup_insert_ne. congruence.
Qed.

(** C1.  [Filter::next] is meant to pull from the child given to the
    constructor.  The constructor does not store that child, so the
    member [child] is null and the first pull of every [next] goes
    through a null pointer, whatever predicate and child were given;
    the same holds for every later call. *)
Theorem Filter_next_ignores_child (fuel k : nat)
    (_pred : option Expression_dyn) (child : option Operator) :
  fst (next (S fuel) (Filter_ctor _pred child)) = NullDeref /\
  next_calls (S fuel) (S k) (Filter_ctor _pred child) = [NullDeref] /\
  children (Filter_ctor _pred child) = [None].
Proof. repeat split. Qed.

(** C9.  [Scan::next] returns the empty optional on every call, the
    first one included, whatever child the [Scan] was built with: any
    number of successive calls all signal exhaustion and none yields a
    row. *)
Theorem Scan_next_exhausted (fuel k : nat) (_child : option Operator) :
  next_calls (S fuel) k (Scan_ctor _child) = replicate k (Ret None) /\
  forall row : Row, Ret (Some row) ∉ next_calls (S fuel) k (Scan_ctor _child).
Proof.
  assert (H : next_calls (S fuel) k (Scan_ctor _child)
              = replicate k (Ret None)).
  { rewrite next_calls_repeat. reflexivity. }
  split; [exact H |].
  intros row Hin. rewrite H in Hin.
  apply elem_of_replicate in Hin as [Hin _]. discriminate.
Qed.

(** C7.  Exhaustion is stable: in a run of successive [next] calls on
    an operator, once a call has returned the empty optional, every
    later call of the run returns it too. *)
Theorem exhaustion_stable (fuel k i j : nat) (this : Operator) :
  next_calls fuel k this !! i = Some (Ret None) ->
  i <= j -> j < k ->
  next_calls fuel k this !! j = Some (Ret None).
Proof.
  rewrite next_calls_repeat. intros Hi Hij Hjk.
  destruct (returned (fst (next fuel this))) eqn:Hr.
  - apply lookup_replicate in Hi as [Hi _].
    apply lookup_replicate. split; [exact Hi | exact Hjk].
  - apply lookup_take_Some in Hi as [Hi _].
    destruct i as [|i]; simpl in Hi; [| destruct i; discriminate].
    injection Hi as Hi. rewrite Hi in Hr. discriminate.
Qed.

(** C4, as the code has it.  Operators keep no record of having been
    opened or closed and nothing checks the protocol: [next] raises no
    error on any operator, whatever was called before, and neither do
    [open] and [close]; on a [Scan] that was never opened [next]
    returns the empty optional, and with a budget of the depth of the
    tree [next] on any operator either returns the empty optional or
    stops at a null [child]. *)
Theorem next_needs_no_open (fuel : nat) (this : Operator)
    (_child : option Operator) :
  thrown (fst (next fuel this)) = false /\
  thrown (snd (open fuel (Some this))) = false /\
  thrown (snd (close fuel (Some this))) = false /\
  fst (next (S fuel) (Scan_ctor _child)) = Ret None /\
  (fst (next (depth this) this) = Ret None \/
   fst (next (depth this) this) = NullDeref).
Proof.
  split; [apply next_no_throw |].
  split; [apply open_no_throw |].
  split; [apply close_no_throw |].
  split; [reflexivity |].
  destruct (next_inert (depth this) this) as [_ [H | [H | H]]]; auto.
  exfalso. revert H. apply next_enough_fuel. lia.
Qed.

Lemma Project_assign_fold (projects : list (string * Expression))
    (vs : list Value) (row new_row : Row) :
  Forall2 (fun p v => Expression_eval p.2 row = Ret v) projects vs ->
  Project_assign projects row new_row
  = Ret (mkRow (foldl assign (payload new_row) (zip projects.*1 vs))).
Proof.
  intros H. revert new_row.
  induction H as [|[n e] v ps vs' Hv _ IH]; intros new_row; simpl.
  - destruct new_row. reflexivity.
  - simpl in Hv. rewrite Hv. simpl. rewrite IH. reflexivity.
Qed.

Lemma foldl_assign_notin (l : list (string * Value))
    (m : gmap string Value) (n : string) :
  n ∉ l.*1 -> foldl assign m l !! n = m !! n.
Proof.
  revert m. induction l as [|[k v] l IH]; intros m Hn; simpl.
  - reflexivity.
  - simpl in Hn. apply not_elem_of_cons in Hn as [Hne Hn].
    rewrite IH by exact Hn. unfold assign. simpl.
    apply lookup_insert_ne. congruence.
Qed.

Lemma foldl_assign_last (l1 l2 : list (string * Value))
    (m : gmap string Value) (n : string) (v : Value) :
  n ∉ l2.*1 -> foldl assign m (l1 ++ (n, v) :: l2) !! n = Some v.
Proof.
  intros Hn. rewrite foldl_app. simpl.
  rewrite foldl_assign_notin by exact Hn.
  unfold assign. simpl. apply lookup_insert_eq.
Qed.

Lemma dom_foldl_assign (l : list (string * Value)) (m : gmap string Value) :
  dom (foldl assign m l) = list_to_set l.*1 ∪ dom m.
Proof.
  revert m. induction l as [|[k v] l IH]; intros m; simpl.
  - rewrite (left_id_L ∅ (∪)). reflexivity.
  - rewrite IH. unfold assign. simpl. rewrite dom_insert_L.
    rewrite (assoc_L (∪)), (comm_L (∪) (list_to_set l.*1) {[k]}).
    reflexivity.
Qed.

(** In the payload built by a run of assignments, a name carries the
    value of the last pair that has it. *)
Lemma foldl_assign_lookup (ns : list string) (vs : list Value)
    (i : nat) (n : string) (v : Value) :
  ns !! i = Some n -> vs !! i = Some v ->
  (forall j, i < j -> ns !! j <> Some n) ->
  foldl assign ∅ (zip ns vs) !! n = Some v.
Proof.
  intros Hn Hv Hlast.
  assert (Hi : zip ns vs !! i = Some (n, v)).
  { apply lookup_zip_with_Some. exists n, v. auto. }
  rewrite <- (take_drop_middle _ _ _ Hi).
  apply foldl_assign_last.
  intros Hin. apply list_elem_of_fmap in Hin as ([k w] & Hk & Hin).
  simpl in Hk. subst k.
  apply list_elem_of_lookup in Hin as (j & Hj).
  rewrite lookup_drop in Hj.
  apply lookup_zip_with_Some in Hj as (n' & w' & [= <- <-] & Hn' & _).
  apply (Hlast (S i + j)); [lia | exact Hn'].
Qed.

(** C5.  [Project::next] makes one call of [next] on its child: the
    child is left as that call leaves it.  When the call returns the
    empty optional, so does [Project::next].  When it returns a row,
    each expression is evaluated on that row and [Project::next]
    returns a new row, built by the assignments [payload[name] = value]
    in declaration order: its keys are exactly the declared names, and
    each name carries the value of its pair (of the last pair, where a
    name is declared more than once).  In the operator tree the call on
    the child is [next] on it. *)
Theorem Project_next_spec
    (child_next : Operator -> outcome (option Row) * Operator)
    (_projects : list (string * Expression)) (c : Operator) :
  (forall c',
      child_next c = (Ret None, c') ->
      Project_next Expression_eval child_next _projects (Some c)
      = (Ret None, Project _projects (Some c'))) /\
  (forall row c' vs,
      child_next c = (Ret (Some row), c') ->
      Forall2 (fun p v => Expression_eval p.2 row = Ret v) _projects vs ->
      exists new_row,
        Project_next Expression_eval child_next _projects (Some c)
        = (Ret (Some new_row), Project _projects (Some c')) /\
        payload new_row = foldl assign ∅ (zip _projects.*1 vs) /\
        dom (payload new_row) = list_to_set _projects.*1 /\
        (forall i n v,
            _projects.*1 !! i = Some n -> vs !! i = Some v ->
            (forall j, i < j -> _projects.*1 !! j <> Some n) ->
            payload new_row !! n = Some v)) /\
  (forall fuel,
      next (S fuel) (Project_ctor _projects (Some c))
      = Project_next Expression_eval (next fuel) _projects (Some c)).
Proof.
  split; [| split].
  - intros c' H. unfold Project_next. rewrite H. reflexivity.
  - intros row c' vs H Hvs.
    exists (mkRow (foldl assign ∅ (zip _projects.*1 vs))).
    split; [| split; [| split]].
    + unfold Project_next. rewrite H. simpl.
      rewrite (Project_assign_fold _ vs) by exact Hvs. reflexivity.
    + reflexivity.
    + simpl. rewrite dom_foldl_assign, dom_empty_L, (right_id_L ∅ (∪)).
      rewrite fst_zip; [reflexivity |].
      apply Forall2_length in Hvs.
      rewrite length_fmap, Hvs. reflexivity.
    + intros i n v. simpl. apply foldl_assign_lookup.
  - intros fuel. reflexivity.
Qed.

End NextProperties.

(** ** Concrete runs *)

(** C7 on a [Project] over a [Scan]: the first call signals exhaustion
    and so does the third. *)
Lemma exhaustion_stable_witness :
  next_calls eval_zero 2 3 (Project_ctor [] (Some (Scan_ctor None))) !! 0%nat
  = Some (Ret None) /\
  next_calls eval_zero 2 3 (Project_ctor [] (Some (Scan_ctor None))) !! 2%nat
  = Some (Ret None).
Proof.
  split; [reflexivity |].
  apply (exhaustion_stable eval_zero 2 3 0 2
           (Project_ctor [] (Some (Scan_ctor None))));
    [reflexivity | lia | lia].
Defined.

(** C4 as stated fails: [next] on a freshly built [Scan], on which
    [open] was never called, returns normally. *)
Lemma next_before_open_returns :
  ~ fails (fst (next eval_zero 1 (Scan_ctor None))).
Proof. unfold fails. simpl. discriminate. Qed.

(** C5 on a [Project] with the output names ["n"] and ["m"], over a
    child that yields the row [{id: 7}]: the row returned has the keys
    ["n"] and ["m"] and not ["id"], and the child is the one the call
    left. *)
Lemma Project_next_spec_witness :
  exists new_row,
    Project_next eval_zero
      (last_row (mkRow {["id" := Value_int 7]}))
      [("n", Expression_object); ("m", Expression_object)]
      (Some (Project_ctor [] None))
    = (Ret (Some new_row),
       Project [("n", Expression_object); ("m", Expression_object)]
               (Some (Scan_ctor None))) /\
    payload new_row
    = foldl assign ∅
        (zip [("n", Expression_object); ("m", Expression_object)].*1
             [Value_int 0; Value_int 0]) /\
    dom (payload new_row)
    = list_to_set [("n", Expression_object); ("m", Expression_object)].*1 /\
    (forall i n v,
        [("n", Expression_object); ("m", Expression_object)].*1 !! i
        = Some n ->
        [Value_int 0; Value_int 0] !! i = Some v ->
        (forall j, i < j ->
                   [("n", Expression_object); ("m", Expression_object)].*1
                     !! j <> Some n) ->
        payload new_row !! n = Some v).
Proof.
  destruct (Project_next_spec eval_zero
              (last_row (mkRow {["id" := Value_int 7]}))
              [("n", Expression_object); ("m", Expression_object)]
              (Project_ctor [] None)) as (_ & Hrow & _).
  apply (Hrow (mkRow {["id" := Value_int 7]}) (Scan_ctor None)
           [Value_int 0; Value_int 0]).
  - reflexivity.
  - repeat constructor.
Defined.

(** * Further properties of the code *)

(** ** The runs of [open] and [close] *)

Lemma depth_chain (this : Operator) : depth this = length (chain this).
Proof.
  revert this. fix IH 1.
  intros [ch|pr [c|]|ps [c|]]; simpl; try reflexivity; rewrite (IH c);
    reflexivity.
Qed.

Lemma bottom_in_chain (this : Operator) : last (chain this) = Some (bottom this).
Proof.
  revert this. fix IH 1.
  intros [ch|pr [c|]|ps [c|]]; simpl; try reflexivity.
  - specialize (IH c). destruct (chain c) eqn:E; [discriminate | exact IH].
  - specialize (IH c). destruct (chain c) eqn:E; [discriminate | exact IH].
Qed.

Lemma run_zero (m : method) (this : Operator) :
  (run_trace m 0 this, run_outcome 0 this) = ([], OutOfFuel).
Proof.
  unfold run_trace, run_outcome.
  destruct (ends_in_Scan this); reflexivity.
Qed.

Lemma run_null_child (m : method) (fuel : nat) (this : Operator) :
  children this = [None] ->
  (Enter m this :: [], snd (match fuel with
                            | 0 => ([], OutOfFuel)
                            | S _ => ([], NullDeref)
                            end : traced))
  = (run_trace m (S fuel) this, run_outcome (S fuel) this).
Proof.
  destruct this as [ch|pr [c|]|ps [c|]]; simpl; try discriminate; intros _;
    unfold run_trace, run_outcome; simpl; destruct fuel; reflexivity.
Qed.

Lemma open_null (fuel : nat) :
  open fuel None = match fuel with
                   | 0 => ([], OutOfFuel)
                   | S _ => ([], NullDeref)
                   end.
Proof. destruct fuel; reflexivity. Qed.

Lemma close_null (fuel : nat) :
  close fuel None = match fuel with
                    | 0 => ([], OutOfFuel)
                    | S _ => ([], NullDeref)
                    end.
Proof. destruct fuel; reflexivity. Qed.

Lemma run_step (m : method) (fuel : nat) (this c : Operator) :
  children this = [Some c] ->
  (Enter m this :: run_trace m fuel c, run_outcome fuel c)
  = (run_trace m (S fuel) this, run_outcome (S fuel) this).
Proof.
  destruct this as [ch|pr [c'|]|ps [c'|]]; simpl; try discriminate;
    intros [= ->]; unfold run_trace, run_outcome; simpl; reflexivity.
Qed.

Lemma run_Scan (m : method) (fuel : nat) (child : option Operator) :
  (replicate fuel (Enter m (Scan child)), OutOfFuel)
  = (run_trace m fuel (Scan child), run_outcome fuel (Scan child)).
Proof.
  unfold run_trace, run_outcome. simpl.
  destruct fuel as [|fuel]; simpl; [reflexivity |].
  rewrite Nat.sub_0_r, take_nil. reflexivity.
Qed.

Lemma open_run (fuel : nat) (this : Operator) :
  open fuel (Some this) = (run_trace m_open fuel this, run_outcome fuel this).
Proof.
  revert this. induction fuel as [|fuel IH]; intros this.
  - rewrite run_zero. reflexivity.
  - destruct this as [ch|pr [c|]|ps [c|]].
    + rewrite open_Scan. apply run_Scan.
    + rewrite <- (run_step m_open fuel _ c) by reflexivity.
      simpl. unfold Operator_open. simpl.
      rewrite !(then__stop (open fuel (Some c))) by apply open_no_return.
      rewrite IH. reflexivity.
    + rewrite <- (run_null_child m_open fuel) by reflexivity.
      simpl. unfold Operator_open. simpl. rewrite open_null.
      destruct fuel; reflexivity.
    + rewrite <- (run_step m_open fuel _ c) by reflexivity.
      simpl. unfold Operator_open. simpl.
      rewrite !(then__stop (open fuel (Some c))) by apply open_no_return.
      rewrite IH. reflexivity.
    + rewrite <- (run_null_child m_open fuel) by reflexivity.
      simpl. unfold Operator_open. simpl. rewrite open_null.
      destruct fuel; reflexivity.
Qed.

Lemma close_run (fuel : nat) (this : Operator) :
  close fuel (Some this)
  = (run_trace m_close fuel this, run_outcome fuel this).
Proof.
  revert this. induction fuel as [|fuel IH]; intros this.
  - rewrite run_zero. reflexivity.
  - destruct this as [ch|pr [c|]|ps [c|]].
    + rewrite close_Scan. apply run_Scan.
    + rewrite <- (run_step m_close fuel _ c) by reflexivity.
      simpl. unfold Operator_close. simpl.
      rewrite !(then__stop (close fuel (Some c))) by apply close_no_return.
      rewrite IH. reflexivity.
    + rewrite <- (run_null_child m_close fuel) by reflexivity.
      simpl. unfold Operator_close. simpl. rewrite close_null.
      destruct fuel; reflexivity.
    + rewrite <- (run_step m_close fuel _ c) by reflexivity.
      simpl. unfold Operator_close. simpl.
      rewrite !(then__stop (close fuel (Some c))) by apply close_no_return.
      rewrite IH. reflexivity.
    + rewrite <- (run_null_child m_close fuel) by reflexivity.
      simpl. unfold Operator_close. simpl. rewrite close_null.
      destruct fuel; reflexivity.
Qed.

(** X1.  The complete run of [open]: it enters the operators from
    [this] down the chain of children.  When the chain ends in a
    [Filter] or [Project] with a null [child], the call stops there at
    the null pointer.  When it ends in a [Scan], [open] goes on
    entering that [Scan] for as long as the budget lasts and never
    comes back. *)
Theorem open_run_shape (fuel : nat) (this : Operator) :
  open fuel (Some this)
  = if ends_in_Scan this
    then (take fuel (Enter m_open <$> chain this)
            ++ replicate (fuel - depth this) (Enter m_open (bottom this)),
          OutOfFuel)
    else (take fuel (Enter m_open <$> chain this),
          if depth this <? fuel then NullDeref else OutOfFuel).
Proof.
  rewrite open_run. unfold run_trace, run_outcome.
  destruct (ends_in_Scan this); [reflexivity |].
  rewrite app_nil_r. reflexivity.
Qed.

(** X2.  The complete run of [close]: the same as [open]'s, root
    first. *)
Theorem close_run_shape (fuel : nat) (this : Operator) :
  close fuel (Some this)
  = if ends_in_Scan this
    then (take fuel (Enter m_close <$> chain this)
            ++ replicate (fuel - depth this) (Enter m_close (bottom this)),
          OutOfFuel)
    else (take fuel (Enter m_close <$> chain this),
          if depth this <? fuel then NullDeref else OutOfFuel).
Proof.
  rewrite close_run. unfold run_trace, run_outcome.
  destruct (ends_in_Scan this); [reflexivity |].
  rewrite app_nil_r. reflexivity.
Qed.

(** X3.  [close] never returns: on no operator and with no budget does
    the call come back, and on a [Scan] the run is nothing but entries
    into [close] on that [Scan]. *)
Theorem close_never_returns :
  (forall (fuel : nat) (this : Operator),
      snd (close fuel (Some this)) <> Ret tt) /\
  (forall (fuel : nat) (child : option Operator),
      close fuel (Some (Scan_ctor child))
      = (replicate fuel (Enter m_close (Scan_ctor child)), OutOfFuel)).
Proof.
  split.
  - intros fuel this H.
    pose proof (close_no_return fuel (Some this)) as Hn.
    rewrite H in Hn. discriminate.
  - intros fuel child. apply close_Scan.
Qed.

(** X4.  [open] and [close] have the same run on every operator: with
    the same budget they end the same way and enter the same operators
    in the same order. *)
Theorem open_close_same_run (fuel : nat) (this : Operator) :
  snd (open fuel (Some this)) = snd (close fuel (Some this)) /\
  (fun e => match e with Enter _ q => q end) <$> fst (open fuel (Some this))
  = (fun e => match e with Enter _ q => q end) <$> fst (close fuel (Some this)).
Proof.
  rewrite open_run, close_run. split; [reflexivity |].
  unfold run_trace. simpl. rewrite !fmap_app, !fmap_take, <- !list_fmap_compose.
  destruct (ends_in_Scan this); simpl; [| reflexivity].
  rewrite !fmap_replicate. reflexivity.
Qed.

(** ** Values *)

(** X5.  On every Value exactly one of the three accessors returns,
    giving back the payload; the other two throw
    [std::bad_variant_access]. *)
Theorem Value_accessors_exclusive (v : Value) :
  (exists i, v = Value_int i /\ get_int v = Ret i /\
             get_string v = Throw bad_variant_access /\
             get_boolean v = Throw bad_variant_access) \/
  (exists s, v = Value_string s /\ get_string v = Ret s /\
             get_int v = Throw bad_variant_access /\
             get_boolean v = Throw bad_variant_access) \/
  (exists b, v = Value_bool b /\ get_boolean v = Ret b /\
             get_int v = Throw bad_variant_access /\
             get_string v = Throw bad_variant_access).
Proof.
  destruct v as [i|s|b].
  - left. exists i. repeat split.
  - right. left. exists s. repeat split.
  - right. right. exists b. repeat split.
Qed.

(** X6.  The comparison step of [EqualExpr::eval] is an equivalence on
    Values: reflexive, symmetric and transitive; its result is always a
    boolean Value, so reading it with [get_boolean] never throws. *)
Theorem equal_result_equivalence (a b c : Value) :
  equal_result a a = Value_bool true /\
  equal_result a b = equal_result b a /\
  (equal_result a b = Value_bool true ->
   equal_result b c = Value_bool true ->
   equal_result a c = Value_bool true) /\
  get_boolean (equal_result a b) = Ret (variant_eqb a b).
Proof.
  split; [| split; [| split]].
  - apply equal_result_true. reflexivity.
  - unfold equal_result. rewrite variant_eqb_sym. reflexivity.
  - rewrite !equal_result_true. intros -> ->. reflexivity.
  - reflexivity.
Qed.

(** ** [next], predicates and projections *)

Lemma size_list_to_set_le (l : list string) :
  size (list_to_set l : gset string) <= length l.
Proof.
  induction l as [|n ns IH].
  - rewrite list_to_set_nil, size_empty. reflexivity.
  - rewrite list_to_set_cons, size_union_alt, size_singleton.
    assert (Hs : size (list_to_set ns ∖ {[n]} : gset string)
                 <= size (list_to_set ns : gset string)).
    { apply subseteq_size. apply subseteq_difference_l. reflexivity. }
    simpl. lia.
Qed.

Section MoreNextProperties.

Variable Expression_eval : Expression -> Row -> outcome Value.

Local Abbreviation next := (next Expression_eval).
Local Abbreviation next_calls := (next_calls Expression_eval).
Local Abbreviation Project_emit := (Project_emit Expression_eval).
Local Abbreviation Project_assign := (Project_assign Expression_eval).

(** X7.  [next] in closed form.  With a budget of at least the depth
    of the tree the call finishes and leaves the object unchanged; it
    returns the empty optional when the chain of children ends in a
    [Scan], and goes through a null pointer when it ends in a [Filter]
    or [Project] whose [child] is null.  With a smaller budget it does
    not finish. *)
Theorem next_closed_form (fuel : nat) (this : Operator) :
  next fuel this
  = (if depth this <=? fuel then next_result this else OutOfFuel, this).
Proof.
  revert this. induction fuel as [|fuel IH]; intros this.
  - destruct this as [ch|pr [c|]|ps [c|]]; reflexivity.
  - destruct this as [ch|pr [c|]|ps [c|]]; simpl; try reflexivity.
    + rewrite (IH c). unfold next_result. simpl.
      destruct (depth c <=? fuel); [| reflexivity].
      destruct (ends_in_Scan c); reflexivity.
    + rewrite (IH c). unfold next_result. simpl.
      destruct (depth c <=? fuel); [| reflexivity].
      destruct (ends_in_Scan c); reflexivity.
Qed.

(** X8.  No operator tree ever yields a row or raises an exception
    from [next]: in any run of successive calls, with any budget, every
    outcome is the empty optional, a null pointer or an exhausted
    budget. *)
Theorem next_calls_no_row (fuel k : nat) (this : Operator) :
  (forall row : Row, Ret (Some row) ∉ next_calls fuel k this) /\
  (forall e : exception, Throw e ∉ next_calls fuel k this).
Proof.
  assert (H : forall r, r ∈ next_calls fuel k this ->
                        r = fst (next fuel this)).
  { intros r. rewrite next_calls_repeat.
    destruct (returned _).
    - intros Hr. apply elem_of_replicate in Hr as [-> _]. reflexivity.
    - intros Hr. apply elem_of_take in Hr as (i & Hi & _).
      destruct i as [|i]; simpl in Hi; [| destruct i; discriminate].
      injection Hi as <-. reflexivity. }
  split.
  - intros row Hin. apply H in Hin. symmetry in Hin.
    revert Hin. apply next_no_row.
  - intros e Hin. apply H in Hin.
    pose proof (next_no_throw Expression_eval fuel this) as Ht.
    rewrite <- Hin in Ht. discriminate.
Qed.

(** X9.  The test of [Filter::next] with a [Variable] as predicate: a
    column missing from the row throws [std::out_of_range], a column
    holding an integer or a text throws [std::bad_variant_access], and
    a boolean column gives its value. *)
Theorem Filter_test_Variable (x : VariableExpr) (row : Row) :
  Filter_test Expression_eval (Some (dyn_Variable x)) row
  = match payload row !! name x with
    | None => Throw out_of_range
    | Some (Value_bool b) => Ret b
    | Some _ => Throw bad_variant_access
    end.
Proof.
  unfold Filter_test. simpl. unfold Variable_eval.
  destruct (payload row !! name x) as [[i|s|b]|]; reflexivity.
Qed.

(** X10.  An [EqualExpr] cannot serve as predicate of a [Filter]: on
    every [EqualExpr] and every row the test goes through a null
    pointer, as it does with a null [pred]. *)
Theorem Filter_test_EqualExpr (e : EqualExpr) (row : Row) :
  Filter_test Expression_eval (Some (dyn_EqualExpr e)) row = NullDeref /\
  Filter_test Expression_eval None row = NullDeref.
Proof.
  unfold Filter_test. simpl. rewrite EqualExpr_eval_null.
  split; reflexivity.
Qed.

Lemma Expression_eval_object (e : Expression) (row : Row) :
  Expression_eval e row = Expression_eval Expression_object row.
Proof. destruct e. reflexivity. Qed.

Lemma Project_assign_stops (projects : list (string * Expression))
    (row new_row : Row) :
  returned (Expression_eval Expression_object row) = false ->
  projects <> [] ->
  Project_assign projects row new_row
  = bind (Expression_eval Expression_object row) (fun _ => Ret new_row).
Proof.
  intros Hr Hne. destruct projects as [|[n e] ps]; [contradiction |].
  simpl. rewrite (Expression_eval_object e).
  destruct (Expression_eval Expression_object row); simpl in *;
    [discriminate | reflexivity ..].
Qed.

(** X11.  From a pulled row, [Project::next] builds a row exactly when
    the list of projections is empty or [Expression::eval] returns on
    that row; with an empty list the new row is empty, and otherwise an
    exception of [Expression::eval] leaves [Project::next] as it is
    thrown. *)
Theorem Project_emit_returns (projects : list (string * Expression))
    (row : Row) :
  returned (Project_emit projects (Some row))
  = returned (Expression_eval Expression_object row)
    || bool_decide (projects = []) /\
  Project_emit [] (Some row) = Ret (Some (mkRow ∅)) /\
  (forall x : exception,
      Expression_eval Expression_object row = Throw x ->
      projects <> [] ->
      Project_emit projects (Some row) = Throw x).
Proof.
  split; [| split].
  - destruct (Expression_eval Expression_object row) as [v| x | |] eqn:E.
    + destruct (Project_assign_spec Expression_eval projects row (mkRow ∅) v)
        as (out & Hout & _).
      { intros e. rewrite Expression_eval_object. exact E. }
      simpl. rewrite Hout. reflexivity.
    + destruct projects as [|[n e] ps]; [reflexivity |].
      simpl. rewrite (Expression_eval_object e), E. reflexivity.
    + destruct projects as [|[n e] ps]; [reflexivity |].
      simpl. rewrite (Expression_eval_object e), E. reflexivity.
    + destruct projects as [|[n e] ps]; [reflexivity |].
      simpl. rewrite (Expression_eval_object e), E. reflexivity.
  - reflexivity.
  - intros x E Hne. simpl.
    rewrite Project_assign_stops by (rewrite ?E; done).
    rewrite E. reflexivity.
Qed.

(** X12.  A row built by [Project::next] answers a [Variable] exactly
    on the declared output names: a [Variable] naming one of them
    evaluates to the projected value, and every other [Variable], the
    columns of the pulled row included, throws [std::out_of_range]. *)
Theorem Project_then_Variable (projects : list (string * Expression))
    (row : Row) (v : Value) :
  (forall e, Expression_eval e row = Ret v) ->
  exists new_row,
    Project_emit projects (Some row) = Ret (Some new_row) /\
    forall x : VariableExpr,
      Variable_eval x new_row
      = if bool_decide (name x ∈ projects.*1)
        then Ret v else Throw out_of_range.
Proof.
  intros Hv.
  destruct (Project_assign_spec Expression_eval projects row (mkRow ∅) v Hv)
    as (out & Hout & _ & Hin & Hnin).
  exists out. simpl. rewrite Hout. split; [reflexivity |].
  intros x. unfold Variable_eval. case_bool_decide as Hx.
  - rewrite (Hin _ Hx). reflexivity.
  - rewrite (Hnin _ Hx). simpl. rewrite lookup_empty. reflexivity.
Qed.

(** X13.  When the declared output names are pairwise different, the
    row [Project::next] builds has as many entries as there are
    projections; in general it has at most that many, since a repeated
    name overwrites its entry. *)
Theorem Project_row_size (projects : list (string * Expression))
    (row : Row) (v : Value) :
  (forall e, Expression_eval e row = Ret v) ->
  exists new_row,
    Project_emit projects (Some row) = Ret (Some new_row) /\
    size (payload new_row) <= length projects /\
    (NoDup projects.*1 -> size (payload new_row) = length projects).
Proof.
  intros Hv.
  destruct (Project_assign_spec Expression_eval projects row (mkRow ∅) v Hv)
    as (out & Hout & Hdom & _).
  exists out. simpl. rewrite Hout. split; [reflexivity |].
  simpl in Hdom. rewrite dom_empty_L, (right_id_L ∅ (∪)) in Hdom.
  rewrite <- size_dom, Hdom, <- (length_fmap fst projects).
  split.
  - apply size_list_to_set_le.
  - intros Hnd. apply size_list_to_set, Hnd.
Qed.

End MoreNextProperties.

(** ** Schema *)

Lemma vector_at_Ret {A : Type} (v : list A) (i : nat) (x : A) :
  vector_at v i = Ret x <-> v !! i = Some x.
Proof.
  unfold vector_at. destruct (v !! i); split; intros H;
    try discriminate; injection H as ->; reflexivity.
Qed.

Lemma vector_at_Throw {A : Type} (v : list A) (i : nat) :
  vector_at v i = Throw out_of_range <-> length v <= i.
Proof.
  unfold vector_at. rewrite <- lookup_ge_None.
  destruct (v !! i); split; intros H; try discriminate; reflexivity.
Qed.

Lemma Schema_column_name_Ret (s : Schema) (n : string) (c : Column) :
  Schema_column_name s n = Ret c <->
  exists i, column_name_map s !! n = Some i /\ columns s !! i = Some c.
Proof.
  unfold Schema_column_name, map_at.
  destruct (column_name_map s !! n) as [i|]; simpl.
  - rewrite vector_at_Ret. split.
    + intros H. exists i. split; [reflexivity | exact H].
    + intros (j & [= <-] & H). exact H.
  - split; [discriminate | intros (j & H & _); discriminate].
Qed.

(** X14.  [Schema::column(index)] is bounds-checked: it returns the
    column at a position below the number of columns, and throws
    [std::out_of_range] at every other position, the empty schema
    included. *)
Theorem Schema_column_index_bounds (s : Schema) (index : nat) :
  (index < length (columns s) ->
   exists c, columns s !! index = Some c /\
             Schema_column_index s index = Ret c) /\
  (length (columns s) <= index ->
   Schema_column_index s index = Throw out_of_range) /\
  Schema_column_index (mkSchema [] (column_name_map s)) index
  = Throw out_of_range.
Proof.
  unfold Schema_column_index. split; [| split].
  - intros Hlt. apply lookup_lt_is_Some in Hlt as [c Hc].
    exists c. split; [exact Hc |]. apply vector_at_Ret, Hc.
  - apply vector_at_Throw.
  - reflexivity.
Qed.

(** X15.  [Schema::column(name)] returns only what the two members
    give: it returns a column exactly when [column_name_map] has the
    name and the position stored for it is below the number of columns,
    and that column is the one at the stored position; a name missing
    from the map, or a stored position out of range, throws
    [std::out_of_range].  The name of the returned column is not
    checked. *)
Theorem Schema_column_name_outcomes (s : Schema) (n : string) :
  (forall c, Schema_column_name s n = Ret c <->
             exists i, column_name_map s !! n = Some i /\
                       columns s !! i = Some c) /\
  (Schema_column_name s n = Throw out_of_range <->
   column_name_map s !! n = None \/
   exists i, column_name_map s !! n = Some i /\ length (columns s) <= i) /\
  ((exists c, Schema_column_name s n = Ret c) \/
   Schema_column_name s n = Throw out_of_range).
Proof.
  split; [| split].
  - intros c. apply Schema_column_name_Ret.
  - unfold Schema_column_name, map_at.
    destruct (column_name_map s !! n) as [i|]; simpl.
    + rewrite vector_at_Throw. split.
      * intros H. right. exists i. split; [reflexivity | exact H].
      * intros [H | (j & [= <-] & H)]; [discriminate | exact H].
    + split; [intros _; left; reflexivity | reflexivity].
  - unfold Schema_column_name, map_at, vector_at.
    destruct (column_name_map s !! n) as [i|]; simpl.
    + destruct (columns s !! i) as [c|]; [left; exists c |]; auto.
    + auto.
Qed.

(** X16.  On a schema whose name map agrees with its columns, the two
    lookups agree: the column at a position is the column found under
    its name; a column found by name has that name; a name that no
    column has throws [std::out_of_range]; and the column names are
    pairwise different. *)
Theorem Schema_indexed_lookups (s : Schema) :
  Schema_indexed s ->
  (forall i c, columns s !! i = Some c ->
               Schema_column_name s (column_name c) = Ret c /\
               Schema_column_index s i = Ret c) /\
  (forall n c, Schema_column_name s n = Ret c ->
               column_name c = n /\ c ∈ columns s) /\
  (forall n, n ∉ column_name <$> columns s ->
             Schema_column_name s n = Throw out_of_range) /\
  NoDup (column_name <$> columns s).
Proof.
  intros Hs. split; [| split; [| split]].
  - intros i c Hc. split.
    + apply Schema_column_name_Ret. exists i. split; [| exact Hc].
      apply Hs. exists c. split; [exact Hc | reflexivity].
    + apply vector_at_Ret, Hc.
  - intros n c H. apply Schema_column_name_Ret in H as (i & Hi & Hc).
    split.
    + apply Hs in Hi as (c' & Hc' & Hn). congruence.
    + apply list_elem_of_lookup. exists i. exact Hc.
  - intros n Hn. unfold Schema_column_name, map_at.
    destruct (column_name_map s !! n) as [i|] eqn:Hi; [| reflexivity].
    exfalso. apply Hn. apply Hs in Hi as (c & Hc & <-).
    apply list_elem_of_fmap. exists c. split; [reflexivity |].
    apply list_elem_of_lookup. exists i. exact Hc.
  - apply NoDup_alt. intros i j n Hi Hj.
    rewrite list_lookup_fmap in Hi, Hj.
    destruct (columns s !! i) as [ci|] eqn:Eci; [| discriminate].
    destruct (columns s !! j) as [cj|] eqn:Ecj; [| discriminate].
    simpl in Hi, Hj. injection Hi as Hi. injection Hj as Hj.
    assert (Hmi : column_name_map s !! n = Some i).
    { apply Hs. exists ci. split; [exact Eci | exact Hi]. }
    assert (Hmj : column_name_map s !! n = Some j).
    { apply Hs. exists cj. split; [exact Ecj | exact Hj]. }
    congruence.
Qed.

(** X17.  [Variable::return_type] on a schema whose name map agrees
    with its columns: it returns a type exactly when the schema has a
    column of the variable's name with that type, and throws
    [std::out_of_range] when no column has the name. *)
Theorem Variable_return_type_indexed (s : Schema) (x : VariableExpr)
    (t : Type_) :
  Schema_indexed s ->
  (Variable_return_type x s = Ret t <-> mkColumn (name x) t ∈ columns s) /\
  (name x ∉ column_name <$> columns s ->
   Variable_return_type x s = Throw out_of_range).
Proof.
  intros Hs. unfold Variable_return_type. split.
  - split.
    + destruct (Schema_column_name s (name x)) as [c| | |] eqn:E;
        simpl; try discriminate.
      intros [= <-].
      apply Schema_column_name_Ret in E as (i & Hi & Hc).
      apply Hs in Hi as (c' & Hc' & Hn).
      assert (c' = c) as -> by congruence.
      apply list_elem_of_lookup. exists i.
      destruct c as [cn ct]. simpl in *. subst cn. exact Hc.
    + intros Hin. apply list_elem_of_lookup in Hin as (i & Hc).
      assert (E : Schema_column_name s (name x) = Ret (mkColumn (name x) t)).
      { apply Schema_column_name_Ret. exists i. split; [| exact Hc].
        apply Hs. exists (mkColumn (name x) t).
        split; [exact Hc | reflexivity]. }
      rewrite E. reflexivity.
  - intros Hn. unfold Schema_column_name, map_at.
    destruct (column_name_map s !! name x) as [i|] eqn:Hi; [| reflexivity].
    exfalso. apply Hn. apply Hs in Hi as (c & Hc & <-).
    apply list_elem_of_fmap. exists c. split; [reflexivity |].
    apply list_elem_of_lookup. exists i. exact Hc.
Qed.

Lemma id_name_schema_indexed : Schema_indexed id_name_schema.
Proof.
  intros n i. unfold id_name_schema. simpl. split.
  - intros H. rewrite lookup_insert in H. case_decide as Hid.
    + injection H as <-. subst n. eexists. split; reflexivity.
    + rewrite lookup_insert in H. case_decide as Hname.
      * injection H as <-. subst n. eexists. split; reflexivity.
      * rewrite lookup_empty in H. discriminate.
  - intros (c & Hc & <-).
    destruct i as [|[|i]]; simpl in Hc; try discriminate;
      injection Hc as <-; reflexivity.
Qed.

(** X18.  As the operators are written, a [Filter] or [Project] with a
    child passes on what [next] on the child comes to, whatever the
    predicate and the projections are: neither is ever consulted. *)
Theorem next_passes_child_outcome
    (Expression_eval : Expression -> Row -> outcome Value) (fuel : nat)
    (pred : option Expression_dyn) (projects : list (string * Expression))
    (c : Operator) :
  fst (next Expression_eval (S fuel) (Filter pred (Some c)))
  = fst (next Expression_eval fuel c) /\
  fst (next Expression_eval (S fuel) (Project projects (Some c)))
  = fst (next Expression_eval fuel c).
Proof.
  simpl.
  destruct (next_inert Expression_eval fuel c) as [_ Hr].
  destruct (next Expression_eval fuel c) as [r c']. simpl in *.
  destruct Hr as [-> | [-> | ->]]; split; reflexivity.
Qed.

(** ** Concrete runs of the further properties *)

Lemma Project_then_Variable_witness :
  exists new_row,
    Project_emit eval_zero [("n", Expression_object)] (Some (mkRow ∅))
    = Ret (Some new_row) /\
    forall x : VariableExpr,
      Variable_eval x new_row
      = if bool_decide (name x ∈ [("n", Expression_object)].*1)
        then Ret (Value_int 0) else Throw out_of_range.
Proof.
  apply (Project_then_Variable eval_zero [("n", Expression_object)]
           (mkRow ∅) (Value_int 0)).
  intros e. reflexivity.
Defined.

Lemma Project_row_size_witness :
  exists new_row,
    Project_emit eval_zero
      [("a", Expression_object); ("b", Expression_object)] (Some (mkRow ∅))
    = Ret (Some new_row) /\
    size (payload new_row)
    <= length [("a", Expression_object); ("b", Expression_object)] /\
    (NoDup [("a", Expression_object); ("b", Expression_object)].*1 ->
     size (payload new_row)
     = length [("a", Expression_object); ("b", Expression_object)]).
Proof.
  apply (Project_row_size eval_zero
           [("a", Expression_object); ("b", Expression_object)]
           (mkRow ∅) (Value_int 0)).
  intros e. reflexivity.
Defined.

Lemma Schema_indexed_lookups_witness :
  Schema_column_name id_name_schema "name" = Ret (mkColumn "name" String) /\
  Schema_column_index id_name_schema 1 = Ret (mkColumn "name" String) /\
  NoDup (column_name <$> columns id_name_schema).
Proof.
  destruct (Schema_indexed_lookups id_name_schema id_name_schema_indexed)
    as (Hpos & _ & _ & Hnd).
  destruct (Hpos 1%nat (mkColumn "name" String)) as [Hn Hi];
    [reflexivity |].
  split; [exact Hn | split; [exact Hi | exact Hnd]].
Defined.

Lemma Variable_return_type_indexed_witness :
  Variable_return_type (mkVariable "name") id_name_schema = Ret String.
Proof.
  apply (Variable_return_type_indexed id_name_schema (mkVariable "name")
           String id_name_schema_indexed).
  apply list_elem_of_lookup. exists 1%nat. reflexivity.
Defined.
